(** * Verification of scripts/build.py

    A shallow embedding of the rule-list build script: the string helpers
    of Python it relies on, the domain reducer, the suffix/exact splitter,
    the two exporters, and the [main] pipeline as a state-and-exception
    monad over a file system, an event trace and the external tools. *)

From Stdlib Require Import ZArith NArith Ascii String List DecimalString.
From stdpp Require Import base decidable list gmap sorting.

Local Open Scope N_scope.

(** ** Python strings

    A Python [str] is a sequence of Unicode code points; a code point is
    a natural number. *)

Definition char := N.
Definition str := list char.

(** [u] reads an ASCII literal as a [str]. *)
Definition u (s : string) : str := map N_of_ascii (list_ascii_of_string s).

Definition SQUOTE : str := [39].
Definition DQUOTE : str := [34].

(** [str.isspace] on one code point: the characters [str.strip()] removes. *)
Definition is_space (c : char) : bool :=
  ((9 <=? c) && (c <=? 13)) || ((28 <=? c) && (c <=? 32))
  || (c =? 133) || (c =? 160) || (c =? 5760)
  || ((8192 <=? c) && (c <=? 8202))
  || (c =? 8232) || (c =? 8233) || (c =? 8239) || (c =? 8287)
  || (c =? 12288).

Fixpoint lstrip_by (p : char -> bool) (s : str) : str :=
  match s with
  | [] => []
  | c :: s' => if p c then lstrip_by p s' else s
  end.

Definition rstrip_by (p : char -> bool) (s : str) : str :=
  reverse (lstrip_by p (reverse s)).

Definition strip_by (p : char -> bool) (s : str) : str :=
  rstrip_by p (lstrip_by p s).

(** [s.strip()] *)
Definition strip (s : str) : str := strip_by is_space s.

(** [s.strip(chars)] *)
Definition strip_chars (chars : str) (s : str) : str :=
  strip_by (fun c => bool_decide (c ∈ chars)) s.

(** [s.startswith(p)] *)
Fixpoint startswith (s p : str) {struct p} : bool :=
  match p, s with
  | [], _ => true
  | _ :: _, [] => false
  | c :: p', d :: s' => (c =? d) && startswith s' p'
  end.

(** [s.endswith(p)] *)
Definition endswith (s p : str) : bool :=
  startswith (reverse s) (reverse p).

(** Truth value of a [str] or a list: non-empty. *)
Definition truthy {A} (l : list A) : bool :=
  match l with [] => false | _ :: _ => true end.

(** The expression [d.strip().strip(SQUOTE).strip(DQUOTE)] (whitespace,
    then single quotes, then double quotes), which the script repeats
    in [split_domains], [normalize_domain], [remove_intersections] and
    [to_singbox_source_for_ipcidr]. *)
Definition trim (d : str) : str :=
  strip_chars DQUOTE (strip_chars SQUOTE (strip d)).

Definition MARKER : str := u "+.".

(** ** The reducer *)

Definition normalize_domain (d : str) : str :=
  let d := trim d in
  if startswith d MARKER then drop 2 d else d.

(** The generator expression [dd == s or dd.endswith(DOT + s)]. *)
Definition hits (dd s : str) : bool :=
  bool_decide (dd = s) || endswith dd (u "." ++ s).

Definition remove_intersections (direct_domains google_suffixes : list str)
  : list str :=
  let gs : gset str := list_to_set google_suffixes in
  fold_left
    (fun result d =>
       let raw := trim d in
       let dd := normalize_domain raw in
       let hit := existsb (hits dd) (elements gs) in
       if negb hit
       then result ++ [if truthy raw then raw else d]
       else result)
    direct_domains [].

(** ** The suffix/exact splitter *)

Definition split_domains (domains : list str) : list str * list str :=
  fold_left
    (fun '(suffixes, exacts) d =>
       let d := trim d in
       if startswith d MARKER
       then (suffixes ++ [drop 2 d], exacts)
       else (suffixes, exacts ++ [d]))
    domains ([], []).

(** ** Sorting strings

    Python orders [str] values lexicographically by code point, a proper
    prefix coming first. *)

Fixpoint str_leb (a b : str) : bool :=
  match a, b with
  | [], _ => true
  | _ :: _, [] => false
  | x :: a', y :: b' =>
      if x <? y then true else if y <? x then false else str_leb a' b'
  end.

Definition str_le (a b : str) : Prop := str_leb a b = true.
Definition str_lt (a b : str) : Prop := str_le a b /\ a <> b.

#[global] Instance str_le_dec (a b : str) : Decision (str_le a b).
Proof. unfold str_le. apply _. Defined.

(** [sorted(l)]: on pairwise distinct keys under a total order the result
    of a sort does not depend on the algorithm. *)
Definition sorted (l : list str) : list str := merge_sort str_le l.

(** [set(l)] *)
Definition set_of (l : list str) : gset str := list_to_set l.

(** [sorted(set(l))] *)
Definition sorted_set (l : list str) : list str :=
  sorted (elements (set_of l)).

(** ** The sing-box rule source *)

(** A rule block is a one-key dictionary; the key is the constructor. *)
Inductive rule :=
  | DomainSuffix (l : list str)
  | Domain (l : list str)
  | IpCidr (l : list str).

Record source := { version : Z; rules : list rule }.

Definition to_singbox_source_for_domains (domains : list str) : source :=
  let '(suffixes, exacts) := split_domains domains in
  let rules := [] in
  let rules :=
    if truthy suffixes then rules ++ [DomainSuffix (sorted_set suffixes)]
    else rules in
  let rules :=
    if truthy exacts then rules ++ [Domain (sorted_set exacts)]
    else rules in
  {| version := 4; rules := rules |}.

Definition to_singbox_source_for_ipcidr (cidrs : list str) : source :=
  let ips := map trim cidrs in
  {| version := 4; rules := [IpCidr ips] |}.

(** The entries a rule source stands for, as a domain list: suffix entries
    carry the marker again, exact entries are as they are. *)
Definition with_marker (s : str) : str := MARKER ++ s.

Definition rule_entries (r : rule) : list str :=
  match r with
  | DomainSuffix l => map with_marker l
  | Domain l => l
  | IpCidr l => l
  end.

Definition source_entries (s : source) : list str :=
  concat (map rule_entries (rules s)).

(** ** Python values, as [yaml.safe_load] returns them *)

#[warnings="-register-all"]
Inductive pyval :=
  | PyNone
  | PyBool (b : bool)
  | PyInt (z : Z)
  | PyStr (s : str)
  | PyList (l : list pyval)
  | PyDict (items : list (pyval * pyval))
  | PyOther (tag : N).

(** [data.get(key)] for a [str] key: only a [str] key can be equal to it. *)
Fixpoint dict_get (items : list (pyval * pyval)) (key : str) : pyval :=
  match items with
  | [] => PyNone
  | (PyStr k, v) :: rest =>
      if bool_decide (k = key) then v else dict_get rest key
  | _ :: rest => dict_get rest key
  end.

(** [isinstance(x, (str, int))]; [bool] is a subclass of [int]. *)
Definition is_str_or_int (x : pyval) : bool :=
  match x with
  | PyStr _ | PyInt _ | PyBool _ => true
  | _ => false
  end.

(** [str(x)] for the values that pass [is_str_or_int]. *)
Definition py_str (x : pyval) : str :=
  match x with
  | PyStr s => s
  | PyInt z => u (NilZero.string_of_int (Z.to_int z))
  | PyBool true => u "True"
  | PyBool false => u "False"
  | _ => []
  end.

(** [data.get("payload") if isinstance(data, dict) else None] *)
Definition payload_of (data : pyval) : pyval :=
  match data with
  | PyDict items => dict_get items (u "payload")
  | _ => PyNone
  end.

(** The list comprehension that ends [load_payload]. *)
Definition payload_entries (payload : list pyval) : list str :=
  map (fun x => strip (py_str x))
      (List.filter
         (fun x => is_str_or_int x && truthy (strip (py_str x))) payload).

(** [data = {"payload": payload_list}] in [save_clash_yaml]. *)
Definition clash_data (payload_list : list str) : pyval :=
  PyDict [(PyStr (u "payload"), PyList (map PyStr payload_list))].

(** ** The world of a run

    File contents and downloaded documents are byte strings. The run is
    observed through its trace: every directory made, file written, line
    printed and process launched, in order. *)

Definition path := str.
Definition data := list N.

Inductive message :=
  | MsgFetch (name : str) (dst : path)
  | MsgToolMissing
  | MsgCompileFailed (returncode : Z) (argv : list str).

Inductive event :=
  | EvMkdir (p : path)
  | EvWrite (p : path) (content : data)
  | EvStdout (m : message)
  | EvStderr (m : message)
  | EvExec (argv : list str).

Inductive exn :=
  | URLError (url : str)
  | FileNotFoundError (name : str)
  | YAMLError (p : path)
  | ValueError (p : path)
  | CalledProcessError (returncode : Z) (argv : list str).

Record world := { files : gmap path data; trace : list event }.

(** What the script takes from outside: where it is installed, the
    network, the YAML and JSON libraries, and the [sing-box] executable
    ([None] when it is not installed; otherwise it maps its arguments and
    the file system to an exit status and a file system).
    [parse_yaml] is [read_text(encoding=utf-8)] followed by
    [yaml.safe_load], [None] when either raises; [dump_yaml] and
    [json_dumps] are the serialisers followed by the UTF-8 encoding. *)
Record environment := {
  ROOT : path;
  urlopen : str -> option data;
  parse_yaml : data -> option pyval;
  dump_yaml : pyval -> data;
  json_dumps : source -> data;
  sing_box : option (list str -> gmap path data -> Z * gmap path data)
}.

(** ** A state and exception monad *)

Inductive result (A : Type) :=
  | Ok (a : A)
  | Raise (e : exn).
Arguments Ok {A} a.
Arguments Raise {A} e.

Definition M (A : Type) : Type := world -> result A * world.

Definition ret {A} (a : A) : M A := fun w => (Ok a, w).

Definition raise {A} (e : exn) : M A := fun w => (Raise e, w).

Definition bind {A B} (m : M A) (k : A -> M B) : M B :=
  fun w =>
    match m w with
    | (Ok a, w') => k a w'
    | (Raise e, w') => (Raise e, w')
    end.

Declare Scope monad_scope.
Delimit Scope monad_scope with monad.
Notation "x <- m ;; k" := (bind m (fun x => k))
  (at level 100, m at next level, right associativity) : monad_scope.
Notation "m ;; k" := (bind m (fun _ => k))
  (at level 100, right associativity) : monad_scope.
Local Open Scope monad_scope.

(** [try: m except ...: h]; the handler says which exceptions it takes. *)
Definition try_except {A} (m : M A) (h : exn -> option (M A)) : M A :=
  fun w =>
    match m w with
    | (Ok a, w') => (Ok a, w')
    | (Raise e, w') =>
        match h e with
        | Some k => k w'
        | None => (Raise e, w')
        end
    end.

Fixpoint for_each {A} (l : list A) (body : A -> M unit) : M unit :=
  match l with
  | [] => ret tt
  | x :: l' => body x ;; for_each l' body
  end.

Definition log_event (e : event) : M unit :=
  fun w => (Ok tt, {| files := files w; trace := trace w ++ [e] |}).

Definition print (m : message) : M unit := log_event (EvStdout m).
Definition print_stderr (m : message) : M unit := log_event (EvStderr m).

Definition mkdir (p : path) : M unit := log_event (EvMkdir p).

Definition write_file (p : path) (content : data) : M unit :=
  fun w =>
    (Ok tt, {| files := <[p := content]> (files w);
               trace := trace w ++ [EvWrite p content] |}).

Definition read_file (p : path) : M data :=
  fun w =>
    match files w !! p with
    | Some content => (Ok content, w)
    | None => (Raise (FileNotFoundError p), w)
    end.

(** [a / b] on paths *)
Definition path_join (a b : path) : path := a ++ u "/" ++ b.
Infix "//" := path_join (at level 40, left associativity).

(** ** The pipeline *)

(** The four values of the [SRC_URLS] dictionary. *)
Definition URL_DIRECT : str :=
  u "https://raw.githubusercontent.com/Loyalsoldier/clash-rules/release/direct.txt".
Definition URL_PRIVATE : str :=
  u "https://raw.githubusercontent.com/Loyalsoldier/clash-rules/release/private.txt".
Definition URL_CNCIDR : str :=
  u "https://raw.githubusercontent.com/Loyalsoldier/clash-rules/release/cncidr.txt".
Definition URL_GOOGLE : str :=
  u "https://raw.githubusercontent.com/Loyalsoldier/clash-rules/release/google.txt".

Section Pipeline.
Context (E : environment).

Definition RULES : path := ROOT E // u "rules".
Definition OUT_CLASH : path := ROOT E // u "out/clash".
Definition OUT_SBOX : path := ROOT E // u "out/singbox".
Definition OUT_SRS : path := ROOT E // u "out/srs".

Definition SRC_URLS : list (str * str) :=
  [ (u "direct", URL_DIRECT); (u "private", URL_PRIVATE);
    (u "cncidr", URL_CNCIDR); (u "google", URL_GOOGLE) ].

Definition ensure_dirs : M unit :=
  for_each [RULES; OUT_CLASH; OUT_SBOX; OUT_SRS] mkdir.

Definition fetch (url : str) (p : path) : M unit :=
  match urlopen E url with
  | Some content => write_file p content
  | None => raise (URLError url)
  end.

Definition load_payload (yaml_path : path) : M (list str) :=
  text <- read_file yaml_path ;;
  match parse_yaml E text with
  | None => raise (YAMLError yaml_path)
  | Some data =>
      match payload_of data with
      | PyList payload => ret (payload_entries payload)
      | _ => raise (ValueError yaml_path)
      end
  end.

Definition save_clash_yaml (payload_list : list str) (out_path : path)
  : M unit :=
  let data := clash_data payload_list in
  write_file out_path (dump_yaml E data).

(** [subprocess.run(argv, check=True)] for the [sing-box] executable. *)
Definition subprocess_run (argv : list str) : M unit :=
  log_event (EvExec argv) ;;
  match sing_box E with
  | None => raise (FileNotFoundError (u "sing-box"))
  | Some tool =>
      fun w =>
        let '(returncode, fs) := tool argv (files w) in
        let w' := {| files := fs; trace := trace w |} in
        if (returncode =? 0)%Z then (Ok tt, w')
        else (Raise (CalledProcessError returncode argv), w')
  end.

(** The command line of [maybe_compile_srs]. *)
Definition compile_argv (json_path srs_path : path) : list str :=
  [u "sing-box"; u "rule-set"; u "compile"; u "--output";
   srs_path; json_path].

Definition maybe_compile_srs (json_path srs_path : path) : M unit :=
  try_except
    (subprocess_run (compile_argv json_path srs_path))
    (fun e =>
       match e with
       | FileNotFoundError _ => Some (print MsgToolMissing)
       | CalledProcessError rc argv =>
           Some (print_stderr (MsgCompileFailed rc argv))
       | _ => None
       end).

Definition main : M unit :=
  ensure_dirs ;;
  for_each SRC_URLS
    (fun '(name, url) =>
       let dst := RULES // (name ++ u ".txt") in
       print (MsgFetch name dst) ;;
       fetch url dst) ;;
  direct <- load_payload (RULES // u "direct.txt") ;;
  private <- load_payload (RULES // u "private.txt") ;;
  cncidr <- load_payload (RULES // u "cncidr.txt") ;;
  google <- load_payload (RULES // u "google.txt") ;;
  let '(g_suffixes, _) := split_domains google in
  let direct_filtered := remove_intersections direct g_suffixes in
  save_clash_yaml direct_filtered (OUT_CLASH // u "direct.yaml") ;;
  save_clash_yaml private (OUT_CLASH // u "private.yaml") ;;
  save_clash_yaml cncidr (OUT_CLASH // u "cncidr.yaml") ;;
  write_file (OUT_SBOX // u "direct.json")
    (json_dumps E (to_singbox_source_for_domains direct_filtered)) ;;
  write_file (OUT_SBOX // u "private.json")
    (json_dumps E (to_singbox_source_for_domains private)) ;;
  write_file (OUT_SBOX // u "cncidr.json")
    (json_dumps E (to_singbox_source_for_ipcidr cncidr)) ;;
  for_each [u "direct"; u "private"; u "cncidr"]
    (fun name =>
       maybe_compile_srs (OUT_SBOX // (name ++ u ".json"))
                         (OUT_SRS // (name ++ u ".srs"))).

End Pipeline.

(** ** Predicates the statements use *)

(** [d] ends with [s] at a label boundary or is [s]: the dot-boundary
    relation of a normalized domain to a suffix. *)
Definition dot_boundary (dd s : str) : Prop :=
  dd = s \/ (u "." ++ s) `suffix_of` dd.

(** What [remove_intersections] appends for a retained entry [d]. *)
Definition emitted (d : str) : str :=
  if truthy (trim d) then trim d else d.

(** Whether the loop of [remove_intersections] retains [d]. *)
Definition retained (gs : list str) (d : str) : bool :=
  negb (existsb (hits (normalize_domain (trim d))) (elements (set_of gs))).

(** Whether a stripped entry carries the suffix-wildcard marker. *)
Definition has_marker (d : str) : bool := startswith d MARKER.

(** The two categories of [split_domains], each as a filter of the
    stripped input. *)
Definition suffix_part (domains : list str) : list str :=
  map (drop 2) (List.filter has_marker (map trim domains)).

Definition exact_part (domains : list str) : list str :=
  List.filter (fun d => negb (has_marker d)) (map trim domains).

(** The splitter run again on the entries of its own rule source. *)
Definition resplit (s : source) : source :=
  to_singbox_source_for_domains (source_entries s).

(** An output of the run: a file written outside the download directory
    [RULES], or a launch of the compiler. *)
Definition is_output_event (E : environment) (e : event) : Prop :=
  match e with
  | EvWrite p _ => ~ (RULES E ++ u "/") `prefix_of` p
  | EvExec _ => True
  | _ => False
  end.

(** A downloaded document has the expected shape: it parses, to a mapping
    whose [payload] field is a list. *)
Definition document_ok (E : environment) (content : data) : Prop :=
  exists v l, parse_yaml E content = Some v /\ payload_of v = PyList l.

(** The entries [load_payload] returns for a document of the expected
    shape. *)
Definition entries_of (E : environment) (content : data) : list str :=
  match parse_yaml E content with
  | Some v =>
      match payload_of v with
      | PyList l => payload_entries l
      | _ => []
      end
  | None => []
  end.

(** The exceptions of [load_payload] on a file that exists. *)
Definition is_load_error (e : exn) : Prop :=
  match e with
  | ValueError _ | YAMLError _ => True
  | _ => False
  end.






(** ** Two environments to run the pipeline in *)

Definition w_init : world := {| files := ∅; trace := [] |}.

(** Every download succeeds and parses to [None]: no mapping at the top
    level. *)
Definition E_malformed : environment :=
  {| ROOT := u "/repo";
     urlopen := fun _ => Some [];
     parse_yaml := fun _ => Some PyNone;
     dump_yaml := fun _ => [];
     json_dumps := fun _ => [];
     sing_box := None |}.


(** ** Further predicates and environments *)

(** An entry without quote characters. *)
Definition quote_free (d : str) : Prop :=
  Forall (fun c => c <> 39 /\ c <> 34) d.

(** An entry that stripping does not change any further once stripped. *)
Definition stable (d : str) : Prop := trim (trim d) = trim d.





(** The body of the download loop of [main]. *)
Definition fetch_one (E : environment) (src : str * str) : M unit :=
  let '(name, url) := src in
  let dst := RULES E // (name ++ u ".txt") in
  bind (print (MsgFetch name dst)) (fun _ => fetch E url dst).

(** The third download fails. *)
Definition E_fetch_fails : environment :=
  {| ROOT := u "/repo";
     urlopen := fun url =>
       if bool_decide (url = URL_CNCIDR) then None else Some [];
     parse_yaml := fun _ => Some PyNone;
     dump_yaml := fun _ => [];
     json_dumps := fun _ => [];
     sing_box := None |}.




(** A world in which the first download is already on disk. *)
Definition w_downloaded : world :=
  {| files := {[ u "/repo/rules/direct.txt" := [] ]}; trace := [] |}.

(** * Properties *)

(** ** The definitions on small inputs *)

Example trim_quoted : trim (u "  '+.example.com' ") = u "+.example.com".
Proof. vm_compute. reflexivity. Qed.

Example trim_not_idempotent :
  trim (DQUOTE ++ u "'a'" ++ DQUOTE) = u "'a'" /\ trim (u "'a'") = u "a".
Proof. vm_compute. split; reflexivity. Qed.

Example normalize_domain_marker :
  normalize_domain (u "+.sub.example.com") = u "sub.example.com".
Proof. vm_compute. reflexivity. Qed.

Example hits_label_boundary :
  hits (u "foo.google.com") (u "google.com") = true /\
  hits (u "google.com") (u "google.com") = true /\
  hits (u "notgoogle.com") (u "google.com") = false.
Proof. vm_compute. repeat split. Qed.

Example py_str_int :
  py_str (PyInt 0) = u "0" /\ py_str (PyInt (-12)) = u "-12" /\
  py_str (PyInt 10080) = u "10080".
Proof. vm_compute. repeat split. Qed.

Example payload_entries_mixed :
  payload_entries [PyStr (u " +.a.com "); PyInt 7; PyNone; PyStr (u "  ");
                   PyOther 0; PyBool true]
  = [u "+.a.com"; u "7"; u "True"].
Proof. vm_compute. reflexivity. Qed.

Example scenario2_split :
  split_domains [u "+.example.com"; u "+.example.com"; u "foo.com"]
  = ([u "example.com"; u "example.com"], [u "foo.com"]) /\
  to_singbox_source_for_domains
    [u "+.example.com"; u "+.example.com"; u "foo.com"]
  = {| version := 4;
       rules := [DomainSuffix [u "example.com"]; Domain [u "foo.com"]] |}.
Proof. vm_compute. split; reflexivity. Qed.

Example sorted_set_orders :
  sorted_set [u "b.org"; u "a.com"; u "b.org"; u "a"; u "B"]
  = [u "B"; u "a"; u "a.com"; u "b.org"].
Proof. vm_compute. reflexivity. Qed.


(** ** Strings *)

Lemma startswith_prefix (s p : str) :
  startswith s p = true <-> p `prefix_of` s.
Proof.
  revert s. induction p as [|c p IH]; intros s; simpl.
  - split; [intros _; apply prefix_nil | reflexivity].
  - destruct s as [|d s].
    + split; [discriminate | intros [k Hk]; discriminate].
    + rewrite andb_true_iff, N.eqb_eq, IH. split.
      * intros [-> Hp]. by apply prefix_cons.
      * intros Hp. split.
        -- by apply prefix_cons_inv_1 in Hp.
        -- by apply prefix_cons_inv_2 in Hp.
Qed.

Lemma endswith_suffix (s p : str) :
  endswith s p = true <-> p `suffix_of` s.
Proof.
  unfold endswith. rewrite startswith_prefix.
  symmetry. apply suffix_prefix_reverse.
Qed.

Lemma hits_dot_boundary (dd s : str) :
  hits dd s = true <-> dot_boundary dd s.
Proof.
  unfold hits, dot_boundary.
  rewrite orb_true_iff, bool_decide_eq_true, endswith_suffix. reflexivity.
Qed.

Lemma trim_nil : trim [] = [].
Proof. reflexivity. Qed.


Lemma normalize_domain_of_trim_nil (d : str) :
  trim d = [] -> normalize_domain d = [].
Proof. unfold normalize_domain. intros ->. reflexivity. Qed.

Lemma emitted_cases (d : str) :
  (trim d <> [] /\ emitted d = trim d) \/ (trim d = [] /\ emitted d = d).
Proof.
  unfold emitted. destruct (trim d) eqn:Ht; simpl; [right | left]; done.
Qed.

Lemma emitted_fixed (d : str) : trim d = d -> emitted d = d.
Proof. unfold emitted. intros ->. by destruct (truthy d). Qed.

(** ** The reducer as a filter followed by a map *)

Lemma fold_left_append {A B} (keep : A -> bool) (f : A -> B) l acc :
  fold_left (fun result d => if keep d then result ++ [f d] else result) l acc
  = acc ++ map f (List.filter keep l).
Proof.
  revert acc. induction l as [|x l IH]; intros acc; simpl.
  - by rewrite app_nil_r.
  - rewrite IH. destruct (keep x); simpl; [|done].
    by rewrite <- app_assoc.
Qed.

Lemma remove_intersections_filter_map (A gs : list str) :
  remove_intersections A gs = map emitted (List.filter (retained gs) A).
Proof.
  unfold remove_intersections.
  exact (fold_left_append (retained gs) emitted A []).
Qed.

Lemma retained_false_iff (gs : list str) (d : str) :
  retained gs d = false <->
  exists s, s ∈ set_of gs /\ dot_boundary (normalize_domain (trim d)) s.
Proof.
  unfold retained. rewrite negb_false_iff, existsb_exists. split.
  - intros (s & Hin & Hh). exists s. split.
    + by apply elem_of_elements, list_elem_of_In.
    + by apply hits_dot_boundary.
  - intros (s & Hin & Hh). exists s. split.
    + by apply list_elem_of_In, elem_of_elements.
    + by apply hits_dot_boundary.
Qed.

Lemma retained_true_iff (gs : list str) (d : str) :
  retained gs d = true <->
  forall s, s ∈ set_of gs -> ~ dot_boundary (normalize_domain (trim d)) s.
Proof.
  split.
  - intros Hr s Hs Hd.
    assert (retained gs d = false) as Hf
      by (apply retained_false_iff; eauto).
    congruence.
  - intros Hno. destruct (retained gs d) eqn:Hr; [done|].
    apply retained_false_iff in Hr as (s & Hs & Hd). by destruct (Hno s).
Qed.

Lemma elem_of_remove_intersections (A gs : list str) (x : str) :
  x ∈ remove_intersections A gs <->
  exists d, d ∈ A /\ retained gs d = true /\ x = emitted d.
Proof.
  rewrite remove_intersections_filter_map, list_elem_of_In, in_map_iff.
  split.
  - intros (d & <- & Hd). apply filter_In in Hd as [Hd Hr].
    exists d. by rewrite list_elem_of_In.
  - intros (d & Hd & Hr & ->). exists d. split; [done|].
    apply filter_In. by rewrite <- list_elem_of_In.
Qed.

Lemma retained_empty (d : str) : retained [] d = true.
Proof. apply retained_true_iff. intros s Hs. set_solver. Qed.

Lemma filter_all {A} (f : A -> bool) (l : list A) :
  (forall x, f x = true) -> List.filter f l = l.
Proof.
  intros Hf. induction l as [|x l IH]; simpl; [done|].
  by rewrite Hf, IH.
Qed.

Lemma map_fixed_iff {A} (f : A -> A) (l : list A) :
  map f l = l <-> Forall (fun x => f x = x) l.
Proof.
  induction l as [|x l IH]; simpl.
  - split; [constructor | done].
  - split.
    + intros Heq. injection Heq as Hx Hl. constructor; [done|]. by apply IH.
    + intros Hall. apply Forall_cons in Hall as [-> Hl].
      f_equal. by apply IH.
Qed.



(** C2, as stated, fails: an entry written inside quotes that has no
    dot-boundary relation to any exclusion suffix is not a member of the
    output, which holds its stripped form instead. *)
Lemma exclusion_completeness_counterexample :
  let A := [u "'example.com'"] in
  let gs := [u "google.com"] in
  let d := u "'example.com'" in
  d ∈ A /\
  (forall s, s ∈ set_of gs -> ~ dot_boundary (normalize_domain d) s) /\
  d ∉ remove_intersections A gs.
Proof.
  split; [by left|]. split.
  - intros s Hs. apply elem_of_list_to_set, list_elem_of_In in Hs.
    destruct Hs as [<- | []].
    intros Hd. apply hits_dot_boundary in Hd. vm_compute in Hd.
    discriminate.
  - intros Hin. vm_compute in Hin.
    apply list_elem_of_In in Hin. destruct Hin as [Heq | []]. discriminate.
Qed.

(** C2, amended. An entry [d] of the base list whose stripped form has a
    normalized form with no dot-boundary relation to any exclusion suffix
    is present in the output as [emitted d], its stripped form; an entry
    without surrounding whitespace or quotes is present as it is; and the
    scenario of the specification evaluates as stated. *)
Theorem exclusion_completeness :
  (forall (A gs : list str) (d : str),
     d ∈ A ->
     (forall s, s ∈ set_of gs ->
                ~ dot_boundary (normalize_domain (trim d)) s) ->
     emitted d ∈ remove_intersections A gs) /\
  (forall (A gs : list str) (d : str),
     d ∈ A ->
     trim d = d ->
     (forall s, s ∈ set_of gs -> ~ dot_boundary (normalize_domain d) s) ->
     d ∈ remove_intersections A gs) /\
  remove_intersections
    [u "+.a.google.com"; u "notgoogle.com"; u "example.com"]
    [u "google.com"]
  = [u "notgoogle.com"; u "example.com"].
Proof.
  assert (forall (A gs : list str) (d : str),
     d ∈ A ->
     (forall s, s ∈ set_of gs ->
                ~ dot_boundary (normalize_domain (trim d)) s) ->
     emitted d ∈ remove_intersections A gs) as Hgen.
  { intros A gs d Hd Hno. apply elem_of_remove_intersections.
    exists d. split; [done|]. split; [|done]. by apply retained_true_iff. }
  split; [exact Hgen|]. split.
  - intros A gs d Hd Ht Hno.
    rewrite <- (emitted_fixed d Ht). apply Hgen; [done|]. by rewrite Ht.
  - vm_compute. reflexivity.
Qed.

Lemma exclusion_completeness_witness :
  emitted (u " '+.example.com' ") ∈
    remove_intersections [u "+.a.google.com"; u " '+.example.com' "]
                         [u "google.com"].
Proof.
  apply (proj1 exclusion_completeness).
  - right. left.
  - intros s Hs. apply elem_of_list_to_set, list_elem_of_In in Hs.
    destruct Hs as [<- | []].
    intros Hd. apply hits_dot_boundary in Hd. vm_compute in Hd.
    discriminate.
Defined.

(** C3, as stated, fails: with an empty exclusion set an entry that has
    surrounding quotes comes back without them. *)
Lemma identity_on_empty_exclusion_counterexample :
  remove_intersections [u "'a.com'"] [] <> [u "'a.com'"].
Proof. vm_compute. discriminate. Qed.

(** C3, amended. With an empty exclusion set [remove_intersections]
    returns the entries of [A] in their order, each one in its emitted
    form (whitespace and quotes around it stripped, unless that leaves
    nothing); the result is [A] itself exactly when no entry is changed by
    that stripping. *)
Theorem identity_on_empty_exclusion (A : list str) :
  remove_intersections A [] = map emitted A /\
  (remove_intersections A [] = A <-> Forall (fun d => emitted d = d) A).
Proof.
  assert (remove_intersections A [] = map emitted A) as Heq.
  { rewrite remove_intersections_filter_map.
    by rewrite (filter_all _ _ retained_empty). }
  split; [done|]. rewrite Heq. apply map_fixed_iff.
Qed.

Lemma identity_on_empty_exclusion_witness :
  remove_intersections [u "+.b.org"; u "a.com"; u "+.b.org"] []
  = [u "+.b.org"; u "a.com"; u "+.b.org"].
Proof.
  apply (proj2 (identity_on_empty_exclusion _)).
  repeat constructor.
Defined.

(** C4, as stated, fails: a retained entry written with quotes is emitted
    without them, so the emitted string is not the input string. *)
Lemma output_preservation_counterexample :
  let d := DQUOTE ++ u "+.a.com" ++ DQUOTE in
  remove_intersections [d] [u "google.com"] = [u "+.a.com"] /\
  d ∉ remove_intersections [d] [u "google.com"].
Proof.
  split; [vm_compute; reflexivity|].
  intros Hin. vm_compute in Hin.
  apply list_elem_of_In in Hin. destruct Hin as [Heq | []]. discriminate.
Qed.

(** C4, amended. The output is, in order, the emitted form of every
    retained entry. The emitted form is the input with surrounding
    whitespace and quotes stripped (the input itself when that leaves
    nothing): the removal of the wildcard marker is used for the
    comparison only, so an entry whose stripped form carries the marker
    is emitted with it. *)
Theorem output_preservation (A gs : list str) :
  remove_intersections A gs = map emitted (List.filter (retained gs) A) /\
  (forall d, (trim d <> [] /\ emitted d = trim d) \/
             (trim d = [] /\ emitted d = d)) /\
  (forall d, startswith (trim d) MARKER = true ->
             startswith (emitted d) MARKER = true).
Proof.
  split; [apply remove_intersections_filter_map|].
  split; [apply emitted_cases|].
  intros d Hm. destruct (emitted_cases d) as [[_ ->] | [Hnil _]]; [done|].
  rewrite Hnil in Hm. discriminate.
Qed.

(** ** The order on strings *)

Lemma str_leb_cons x a y b :
  str_leb (x :: a) (y :: b) = true <-> x < y \/ (x = y /\ str_leb a b = true).
Proof.
  simpl. destruct (N.ltb_spec x y) as [Hxy | Hxy].
  - split; [by left | done].
  - destruct (N.ltb_spec y x) as [Hyx | Hyx].
    + split; [done | intros [? | [? _]]; lia].
    + split.
      * intros Hab. right. split; [lia | done].
      * intros [? | [_ ?]]; [lia | done].
Qed.

#[global] Instance str_le_total : Total str_le.
Proof.
  unfold Total, str_le. intros a. induction a as [|x a IH]; intros b.
  - by left.
  - destruct b as [|y b]; [by right|].
    rewrite !str_leb_cons. destruct (IH b) as [Hab | Hba].
    + destruct (N.lt_trichotomy x y) as [? | [? | ?]]; auto.
    + destruct (N.lt_trichotomy x y) as [? | [? | ?]]; auto.
Qed.

#[global] Instance str_le_trans : Transitive str_le.
Proof.
  unfold Transitive, str_le. intros a. induction a as [|x a IH]; intros b c.
  - done.
  - destruct b as [|y b]; [done|]. destruct c as [|z c]; [done|].
    rewrite !str_leb_cons.
    intros [Hxy | [-> Hab]] [Hyz | [-> Hbc]]; try (left; lia); try by left.
    right. split; [done|]. by apply (IH b c).
Qed.

Lemma sorted_set_elem_of (l : list str) (x : str) :
  x ∈ sorted_set l <-> x ∈ l.
Proof.
  unfold sorted_set, sorted, set_of.
  rewrite merge_sort_Permutation, elem_of_elements.
  apply elem_of_list_to_set.
Qed.

Lemma sorted_set_sorted (l : list str) : StronglySorted str_le (sorted_set l).
Proof. apply StronglySorted_merge_sort; apply _. Qed.

Lemma sorted_set_NoDup (l : list str) : NoDup (sorted_set l).
Proof.
  unfold sorted_set, sorted. rewrite merge_sort_Permutation.
  apply NoDup_elements.
Qed.

Lemma set_of_sorted_set (l : list str) : set_of (sorted_set l) = set_of l.
Proof.
  unfold sorted_set, sorted, set_of at 1.
  rewrite merge_sort_Permutation. apply list_to_set_elements_L.
Qed.

Lemma sorted_set_idem (l : list str) : sorted_set (sorted_set l) = sorted_set l.
Proof. unfold sorted_set at 1. by rewrite set_of_sorted_set. Qed.

Lemma truthy_sorted_set (l : list str) : truthy (sorted_set l) = truthy l.
Proof.
  destruct l as [|x l].
  - reflexivity.
  - assert (x ∈ sorted_set (x :: l)) as Hx
      by (apply sorted_set_elem_of; left).
    by destruct (sorted_set (x :: l)); [inversion Hx|].
Qed.

(** ** The splitter as two filters *)

Lemma split_domains_acc (domains sx ex : list str) :
  fold_left
    (fun '(suffixes, exacts) d =>
       let d := trim d in
       if startswith d MARKER
       then (suffixes ++ [drop 2 d], exacts)
       else (suffixes, exacts ++ [d]))
    domains (sx, ex)
  = (sx ++ suffix_part domains, ex ++ exact_part domains).
Proof.
  revert sx ex. induction domains as [|d l IH]; intros sx ex.
  - unfold suffix_part, exact_part. simpl. by rewrite !app_nil_r.
  - cbn [fold_left]. unfold suffix_part, exact_part, has_marker in *.
    cbn [map List.filter].
    destruct (startswith (trim d) MARKER); rewrite IH; cbn [negb map];
      by rewrite <- ?app_assoc.
Qed.

Lemma split_domains_parts (domains : list str) :
  split_domains domains = (suffix_part domains, exact_part domains).
Proof. unfold split_domains. by rewrite split_domains_acc. Qed.

Lemma normalize_domain_cases (d : str) :
  normalize_domain d
  = if has_marker (trim d) then drop 2 (trim d) else trim d.
Proof. reflexivity. Qed.

Lemma suffix_part_elem_of (domains : list str) (x : str) :
  x ∈ suffix_part domains <->
  exists d, d ∈ domains /\ has_marker (trim d) = true /\ x = drop 2 (trim d).
Proof.
  unfold suffix_part. rewrite list_elem_of_In, in_map_iff. split.
  - intros (t & <- & Ht). apply filter_In in Ht as [Ht Hm].
    apply in_map_iff in Ht as (d & <- & Hd).
    exists d. by rewrite list_elem_of_In.
  - intros (d & Hd & Hm & ->). exists (trim d). split; [done|].
    apply filter_In. split; [|done].
    apply in_map. by apply list_elem_of_In.
Qed.

Lemma exact_part_elem_of (domains : list str) (x : str) :
  x ∈ exact_part domains <->
  exists d, d ∈ domains /\ has_marker (trim d) = false /\ x = trim d.
Proof.
  unfold exact_part. rewrite list_elem_of_In, filter_In, in_map_iff. split.
  - intros [(d & <- & Hd) Hm]. apply negb_true_iff in Hm.
    exists d. by rewrite list_elem_of_In.
  - intros (d & Hd & Hm & ->). split.
    + exists d. split; [done|]. by apply list_elem_of_In.
    + by rewrite Hm.
Qed.

Lemma filter_length_split {A} (f : A -> bool) (l : list A) :
  (length (List.filter f l) + length (List.filter (fun x => negb (f x)) l)
   = length l)%nat.
Proof.
  induction l as [|x l IH]; simpl; [done|].
  destruct (f x); simpl; lia.
Qed.

Lemma has_marker_app (s : str) : has_marker (MARKER ++ s) = true.
Proof. apply startswith_prefix. by exists s. Qed.

Lemma has_marker_drop (t : str) :
  has_marker t = true -> MARKER ++ drop 2 t = t.
Proof.
  intros Hm. apply startswith_prefix in Hm as [k ->]. reflexivity.
Qed.

Lemma rules_of_domains (domains : list str) :
  rules (to_singbox_source_for_domains domains)
  = (if truthy (suffix_part domains)
     then [DomainSuffix (sorted_set (suffix_part domains))] else [])
    ++ (if truthy (exact_part domains)
        then [Domain (sorted_set (exact_part domains))] else []).
Proof.
  unfold to_singbox_source_for_domains. rewrite split_domains_parts.
  destruct (truthy (suffix_part domains)), (truthy (exact_part domains));
    reflexivity.
Qed.

(** C5, as stated, fails: the [ip_cidr] block and the YAML payload field
    hold the entries as they come, unsorted and with their duplicates. *)
Lemma exports_sorted_dedup_counterexample :
  let l := [u "b"; u "a"; u "a"] in
  rules (to_singbox_source_for_ipcidr l) = [IpCidr l] /\
  payload_of (clash_data l) = PyList (map PyStr l) /\
  ~ NoDup l /\ ~ StronglySorted str_le l.
Proof.
  split; [reflexivity|]. split; [reflexivity|]. split.
  - intros Hnd. apply NoDup_cons in Hnd as [_ Hnd].
    apply NoDup_cons in Hnd as [Hnotin _]. apply Hnotin. left.
  - intros Hs. apply StronglySorted_cons in Hs as [Hall _].
    apply Forall_cons in Hall as [Hle _]. vm_compute in Hle. discriminate.
Qed.

(** C5, amended. Every rule block of the rule source of a domain list is
    a [domain_suffix] or a [domain] block whose list is sorted, free of
    duplicates and holds exactly the entries of its category. The payload
    field of the YAML document is the list it is given, and the [ip_cidr]
    block is the given list with each entry stripped: both keep the order
    and the duplicates of their input. *)
Theorem exports_sorted_dedup :
  (forall (domains : list str) (r : rule),
     r ∈ rules (to_singbox_source_for_domains domains) ->
     exists l part,
       (r = DomainSuffix l /\ part = fst (split_domains domains) \/
        r = Domain l /\ part = snd (split_domains domains)) /\
       StronglySorted str_le l /\ NoDup l /\
       (forall x, x ∈ l <-> x ∈ part)) /\
  (forall payload_list : list str,
     payload_of (clash_data payload_list) = PyList (map PyStr payload_list)) /\
  (forall cidrs : list str,
     rules (to_singbox_source_for_ipcidr cidrs) = [IpCidr (map trim cidrs)]).
Proof.
  split; [|split; reflexivity].
  intros domains r Hr. rewrite rules_of_domains in Hr.
  rewrite split_domains_parts. cbn [fst snd].
  apply elem_of_app in Hr as [Hr | Hr].
  - destruct (truthy (suffix_part domains)); [|by inversion Hr].
    apply list_elem_of_singleton in Hr as ->.
    exists (sorted_set (suffix_part domains)), (suffix_part domains).
    split; [by left|].
    split; [apply sorted_set_sorted|].
    split; [apply sorted_set_NoDup | apply sorted_set_elem_of].
  - destruct (truthy (exact_part domains)); [|by inversion Hr].
    apply list_elem_of_singleton in Hr as ->.
    exists (sorted_set (exact_part domains)), (exact_part domains).
    split; [by right|].
    split; [apply sorted_set_sorted|].
    split; [apply sorted_set_NoDup | apply sorted_set_elem_of].
Qed.

Lemma exports_sorted_dedup_witness :
  exists l part,
    (Domain [u "a.com"; u "b.org"] = DomainSuffix l /\
     part = fst (split_domains [u "b.org"; u "a.com"; u "b.org"]) \/
     Domain [u "a.com"; u "b.org"] = Domain l /\
     part = snd (split_domains [u "b.org"; u "a.com"; u "b.org"])) /\
    StronglySorted str_le l /\ NoDup l /\
    (forall x, x ∈ l <-> x ∈ part).
Proof.
  apply (proj1 exports_sorted_dedup).
  vm_compute. left.
Defined.

(** C6, as stated, fails: a name listed both with and without the marker
    lands in both categories, so the two results are not disjoint. *)
Lemma split_partition_counterexample :
  let '(suffixes, exacts) :=
    split_domains [u "+.example.com"; u "example.com"] in
  u "example.com" ∈ suffixes /\ u "example.com" ∈ exacts.
Proof. vm_compute. split; left. Qed.

(** C6, amended. [split_domains] sends every input entry to exactly one
    of the two categories, by whether its stripped form carries the
    marker: the suffix category is the marked entries with the marker
    dropped, the exact category the other stripped entries, both in input
    order, and together they are as many as the input. A string is in one
    of the two categories exactly when it is the normalized form of an
    input entry. (The two categories may share a string.) *)
Theorem split_partition (domains : list str) :
  split_domains domains = (suffix_part domains, exact_part domains) /\
  (length (fst (split_domains domains))
   + length (snd (split_domains domains)) = length domains)%nat /\
  (forall x,
     x ∈ fst (split_domains domains) \/ x ∈ snd (split_domains domains)
     <-> x ∈ map normalize_domain domains) /\
  set_of (fst (split_domains domains)) ∪ set_of (snd (split_domains domains))
  = set_of (map normalize_domain domains).
Proof.
  assert (forall x,
     x ∈ suffix_part domains \/ x ∈ exact_part domains
     <-> x ∈ map normalize_domain domains) as Hmem.
  { intros x. rewrite suffix_part_elem_of, exact_part_elem_of.
    rewrite (list_elem_of_In _ x), in_map_iff. split.
    - intros [(d & Hd & Hm & ->) | (d & Hd & Hm & ->)];
        exists d; rewrite normalize_domain_cases, Hm;
        by rewrite <- list_elem_of_In.
    - intros (d & <- & Hd). apply list_elem_of_In in Hd.
      rewrite normalize_domain_cases.
      destruct (has_marker (trim d)) eqn:Hm; [left | right]; by exists d. }
  rewrite split_domains_parts. cbn [fst snd].
  split; [done|]. split; [|split; [exact Hmem|]].
  - unfold suffix_part, exact_part. rewrite length_map.
    rewrite filter_length_split. apply length_map.
  - apply set_eq. intros x. unfold set_of.
    rewrite elem_of_union, !elem_of_list_to_set. apply Hmem.
Qed.

(** C7, as stated, fails: an entry wrapped in double quotes around single
    quotes is stripped once more when the splitter runs on its own
    output, so the second run gives another exact category. *)
Lemma split_idempotent_counterexample :
  let domains := [DQUOTE ++ u "'a.com'" ++ DQUOTE] in
  to_singbox_source_for_domains domains
  = {| version := 4; rules := [Domain [u "'a.com'"]] |} /\
  resplit (to_singbox_source_for_domains domains)
  = {| version := 4; rules := [Domain [u "a.com"]] |} /\
  resplit (to_singbox_source_for_domains domains)
  <> to_singbox_source_for_domains domains.
Proof. vm_compute. repeat split. discriminate. Qed.

Lemma split_domains_of_parts (sx ex : list str) :
  Forall (fun s => trim (with_marker s) = with_marker s) sx ->
  Forall (fun e => trim e = e /\ has_marker e = false) ex ->
  split_domains (map with_marker sx ++ ex) = (sx, ex).
Proof.
  intros Hsx Hex. rewrite split_domains_parts.
  unfold suffix_part, exact_part. rewrite map_app, !List.filter_app, map_app.
  assert (map trim (map with_marker sx)
          = map with_marker sx) as ->.
  { rewrite map_map. induction Hsx as [|s l Hs _ IH]; simpl; [done|].
    rewrite IH. f_equal. exact Hs. }
  assert (map trim ex = ex) as ->.
  { induction Hex as [|e l [He _] _ IH]; simpl; [done|].
    by rewrite IH, He. }
  assert (List.filter has_marker ex = []) as ->.
  { induction Hex as [|e l [_ He] _ IH]; simpl; [done|]. by rewrite He. }
  assert (List.filter (fun d => negb (has_marker d)) ex = ex) as ->.
  { induction Hex as [|e l [_ He] _ IH]; simpl; [done|].
    by rewrite He, IH. }
  assert (List.filter has_marker (map with_marker sx)
          = map with_marker sx) as ->.
  { clear Hsx. induction sx as [|s l IH]; [done|].
    cbn [map List.filter]. unfold with_marker at 1.
    by rewrite has_marker_app, IH. }
  assert (List.filter (fun d => negb (has_marker d))
            (map with_marker sx) = []) as ->.
  { clear Hsx. induction sx as [|s l IH]; [done|].
    cbn [map List.filter]. unfold with_marker at 1.
    by rewrite has_marker_app. }
  rewrite app_nil_r, map_map. simpl.
  f_equal. clear. induction sx as [|s l IH]; simpl; [done|]. by rewrite IH.
Qed.

(** C7, amended. For a domain list whose entries are stable under
    stripping (stripping the stripped entry changes nothing, as for every
    entry free of quote characters), running the splitter on the entries
    of its own rule source, the suffix entries carrying the marker again,
    gives the same rule source: the same suffix category and the same
    exact category. *)
Theorem split_idempotent (domains : list str) :
  Forall (fun d => trim (trim d) = trim d) domains ->
  resplit (to_singbox_source_for_domains domains)
  = to_singbox_source_for_domains domains.
Proof.
  intros Hstable. rewrite Forall_forall in Hstable.
  set (sx := sorted_set (suffix_part domains)).
  set (ex := sorted_set (exact_part domains)).
  assert (Forall (fun s => trim (with_marker s) = with_marker s) sx) as Hsx.
  { apply Forall_forall. intros s Hs.
    apply sorted_set_elem_of, suffix_part_elem_of in Hs as (d & Hd & Hm & ->).
    unfold with_marker. rewrite (has_marker_drop _ Hm). by apply Hstable. }
  assert (Forall (fun e => trim e = e /\ has_marker e = false) ex) as Hex.
  { apply Forall_forall. intros e He.
    apply sorted_set_elem_of, exact_part_elem_of in He as (d & Hd & Hm & ->).
    split; [by apply Hstable | done]. }
  assert (split_domains
            (source_entries (to_singbox_source_for_domains domains))
          = (if truthy (suffix_part domains) then sx else [],
             if truthy (exact_part domains) then ex else [])) as Hsplit.
  { unfold source_entries. rewrite rules_of_domains. fold sx ex.
    destruct (truthy (suffix_part domains)), (truthy (exact_part domains));
      cbn [map concat rule_entries app]; rewrite ?app_nil_r.
    - by apply split_domains_of_parts.
    - rewrite <- (app_nil_r (map _ sx)).
      apply split_domains_of_parts; [done | constructor].
    - apply (split_domains_of_parts [] ex); [constructor | done].
    - reflexivity. }
  unfold resplit.
  unfold to_singbox_source_for_domains at 1. rewrite Hsplit.
  unfold to_singbox_source_for_domains. rewrite split_domains_parts.
  unfold sx, ex.
  destruct (truthy (suffix_part domains)) eqn:Hts,
           (truthy (exact_part domains)) eqn:Hte;
    rewrite ?truthy_sorted_set, ?Hts, ?Hte, ?sorted_set_idem; reflexivity.
Qed.

Lemma split_idempotent_witness :
  let domains := [u "+.example.com"; u " foo.com"; u "+.example.com";
                  u "'bar.org'"] in
  resplit (to_singbox_source_for_domains domains)
  = to_singbox_source_for_domains domains.
Proof.
  apply split_idempotent.
  repeat constructor.
Defined.

Lemma rules_of_domains_elem_of (domains : list str) (r : rule) :
  r ∈ rules (to_singbox_source_for_domains domains) <->
  (suffix_part domains <> [] /\
   r = DomainSuffix (sorted_set (suffix_part domains))) \/
  (exact_part domains <> [] /\
   r = Domain (sorted_set (exact_part domains))).
Proof.
  rewrite rules_of_domains, elem_of_app.
  destruct (suffix_part domains) as [|s sx],
           (exact_part domains) as [|e ex]; cbn [truthy];
    rewrite ?list_elem_of_singleton, ?elem_of_nil; intuition congruence.
Qed.

Lemma sorted_set_nonempty (l : list str) : l <> [] -> sorted_set l <> [].
Proof.
  intros Hl Hs. pose proof (truthy_sorted_set l) as Ht.
  rewrite Hs in Ht. destruct l; [done | discriminate].
Qed.

(** C10. The CIDR exporter emits exactly one rule block, an [ip_cidr]
    block, for every input; for the empty input the block holds the empty
    list. The domain exporter emits a block for a category only when the
    category is not empty, never one that holds an empty list, and no
    block at all for the empty input. *)
Theorem ipcidr_block_always_emitted :
  (forall cidrs : list str,
     exists l, rules (to_singbox_source_for_ipcidr cidrs) = [IpCidr l] /\
               length l = length cidrs) /\
  rules (to_singbox_source_for_ipcidr []) = [IpCidr []] /\
  rules (to_singbox_source_for_domains []) = [] /\
  (forall domains : list str,
     ((exists l, DomainSuffix l ∈ rules (to_singbox_source_for_domains domains))
      <-> fst (split_domains domains) <> []) /\
     ((exists l, Domain l ∈ rules (to_singbox_source_for_domains domains))
      <-> snd (split_domains domains) <> []) /\
     (forall l, IpCidr l ∉ rules (to_singbox_source_for_domains domains)) /\
     (forall l, DomainSuffix l ∈ rules (to_singbox_source_for_domains domains)
                \/ Domain l ∈ rules (to_singbox_source_for_domains domains)
                -> l <> [])).
Proof.
  split; [|split; [reflexivity | split; [reflexivity|]]].
  - intros cidrs. exists (map trim cidrs). split; [reflexivity|].
    apply length_map.
  - intros domains. rewrite split_domains_parts. cbn [fst snd].
    split; [|split; [|split]].
    + split.
      * intros [l Hl]. apply rules_of_domains_elem_of in Hl.
        destruct Hl as [[Hne _] | [_ Heq]]; [done | discriminate].
      * intros Hne. eexists. apply rules_of_domains_elem_of. by left.
    + split.
      * intros [l Hl]. apply rules_of_domains_elem_of in Hl.
        destruct Hl as [[_ Heq] | [Hne _]]; [discriminate | done].
      * intros Hne. eexists. apply rules_of_domains_elem_of. by right.
    + intros l Hl. apply rules_of_domains_elem_of in Hl.
      destruct Hl as [[_ Heq] | [_ Heq]]; discriminate.
    + intros l [Hl | Hl]; apply rules_of_domains_elem_of in Hl;
        destruct Hl as [[Hne Heq] | [Hne Heq]]; try discriminate;
        injection Heq as ->; by apply sorted_set_nonempty.
Qed.

(** ** Runs of the pipeline *)

Lemma path_join_inj (p a b : path) : p // a = p // b -> a = b.
Proof.
  unfold path_join. intros H. apply app_inv_head in H.
  by apply app_inv_head in H.
Qed.

Lemma path_join_ne (p a b : path) : a <> b -> p // a <> p // b.
Proof. intros Hne H. by apply Hne, (path_join_inj p). Qed.

Ltac path_ne := apply path_join_ne; vm_compute; discriminate.

Section PipelineFacts.
Context (E : environment).

Lemma bind_run {A B} (m : M A) (k : A -> M B) (w : world) :
  bind m k w
  = match m w with
    | (Ok a, w') => k a w'
    | (Raise e, w') => (Raise e, w')
    end.
Proof. reflexivity. Qed.

Lemma ensure_dirs_run (w : world) :
  ensure_dirs E w
  = (Ok tt,
     {| files := files w;
        trace := trace w ++ [EvMkdir (RULES E); EvMkdir (OUT_CLASH E);
                             EvMkdir (OUT_SBOX E); EvMkdir (OUT_SRS E)] |}).
Proof.
  unfold ensure_dirs. cbn [for_each]. unfold bind, mkdir, log_event, ret.
  cbn [files trace]. by rewrite <- !app_assoc.
Qed.

Lemma fetch_all_run (w : world) (c1 c2 c3 c4 : data) :
  urlopen E URL_DIRECT = Some c1 ->
  urlopen E URL_PRIVATE = Some c2 ->
  urlopen E URL_CNCIDR = Some c3 ->
  urlopen E URL_GOOGLE = Some c4 ->
  for_each SRC_URLS
    (fun '(name, url) =>
       let dst := RULES E // (name ++ u ".txt") in
       print (MsgFetch name dst) ;;
       fetch E url dst) w
  = (Ok tt,
     {| files :=
          <[RULES E // u "google.txt" := c4]>
            (<[RULES E // u "cncidr.txt" := c3]>
               (<[RULES E // u "private.txt" := c2]>
                  (<[RULES E // u "direct.txt" := c1]> (files w))));
        trace :=
          trace w ++
          [EvStdout (MsgFetch (u "direct") (RULES E // u "direct.txt"));
           EvWrite (RULES E // u "direct.txt") c1;
           EvStdout (MsgFetch (u "private") (RULES E // u "private.txt"));
           EvWrite (RULES E // u "private.txt") c2;
           EvStdout (MsgFetch (u "cncidr") (RULES E // u "cncidr.txt"));
           EvWrite (RULES E // u "cncidr.txt") c3;
           EvStdout (MsgFetch (u "google") (RULES E // u "google.txt"));
           EvWrite (RULES E // u "google.txt") c4] |}).
Proof.
  intros H1 H2 H3 H4. unfold SRC_URLS. cbn [for_each].
  unfold bind, print, log_event, fetch, write_file, ret.
  rewrite H1, H2, H3, H4. cbn [files trace].
  rewrite <- !app_assoc. reflexivity.
Qed.

Lemma document_ok_dec (c : data) : document_ok E c \/ ~ document_ok E c.
Proof.
  unfold document_ok. destruct (parse_yaml E c) as [v|].
  - destruct (payload_of v) eqn:Hp;
      try (right; intros (v' & l' & Hv & Hl); congruence).
    left. eauto.
  - right. intros (v & l & Hv & _). discriminate.
Qed.

Lemma load_payload_ok (p : path) (w : world) (c : data) :
  files w !! p = Some c ->
  document_ok E c ->
  load_payload E p w = (Ok (entries_of E c), w).
Proof.
  intros Hf (v & l & Hv & Hl).
  unfold load_payload, entries_of, bind, read_file. rewrite Hf, Hv, Hl.
  reflexivity.
Qed.

Lemma load_payload_bad (p : path) (w : world) (c : data) :
  files w !! p = Some c ->
  ~ document_ok E c ->
  exists e, load_payload E p w = (Raise e, w) /\ is_load_error e.
Proof.
  intros Hf Hbad. unfold load_payload, bind, read_file. rewrite Hf.
  destruct (parse_yaml E c) as [v|] eqn:Hv.
  - destruct (payload_of v) eqn:Hp;
      try (eexists; split; [reflexivity | exact I]).
    destruct Hbad. unfold document_ok. rewrite Hv. eauto.
  - eexists. split; [reflexivity | exact I].
Qed.

Lemma rules_path_not_output (name : str) (c : data) :
  ~ is_output_event E (EvWrite (RULES E // name) c).
Proof.
  simpl. intros H. apply H. exists name.
  unfold path_join. by rewrite <- app_assoc.
Qed.

Lemma fetched_files (fs : gmap path data) (c1 c2 c3 c4 : data) :
  let fs' :=
    <[RULES E // u "google.txt" := c4]>
      (<[RULES E // u "cncidr.txt" := c3]>
         (<[RULES E // u "private.txt" := c2]>
            (<[RULES E // u "direct.txt" := c1]> fs))) in
  fs' !! (RULES E // u "direct.txt") = Some c1 /\
  fs' !! (RULES E // u "private.txt") = Some c2 /\
  fs' !! (RULES E // u "cncidr.txt") = Some c3 /\
  fs' !! (RULES E // u "google.txt") = Some c4 /\
  (forall p, ~ (RULES E ++ u "/") `prefix_of` p -> fs' !! p = fs !! p).
Proof.
  intros fs'. unfold fs'. repeat split.
  - rewrite !lookup_insert_ne by path_ne. apply lookup_insert_eq.
  - rewrite !lookup_insert_ne by path_ne. apply lookup_insert_eq.
  - rewrite !lookup_insert_ne by path_ne. apply lookup_insert_eq.
  - apply lookup_insert_eq.
  - intros p Hp. rewrite !lookup_insert_ne; [done|..];
      intros <-; apply Hp; eexists; unfold path_join;
      by rewrite <- app_assoc.
Qed.

(** C8. Atomic abort on a malformed source: when the four downloads
    succeed and one of the documents does not have the expected shape
    (it does not parse, or its top level is not a mapping with a
    list-valued payload field), [main] ends with the load error of
    [load_payload]; up to then it has written only the downloaded files
    under [RULES] and launched no compiler, and every file outside
    [RULES] is as it was. *)
Theorem abort_on_malformed_source (w : world) (c1 c2 c3 c4 : data) :
  urlopen E URL_DIRECT = Some c1 ->
  urlopen E URL_PRIVATE = Some c2 ->
  urlopen E URL_CNCIDR = Some c3 ->
  urlopen E URL_GOOGLE = Some c4 ->
  ~ (document_ok E c1 /\ document_ok E c2 /\
     document_ok E c3 /\ document_ok E c4) ->
  exists e w' evs,
    main E w = (Raise e, w') /\
    is_load_error e /\
    trace w' = trace w ++ evs /\
    Forall (fun ev => ~ is_output_event E ev) evs /\
    (forall p, ~ (RULES E ++ u "/") `prefix_of` p ->
               files w' !! p = files w !! p).
Proof.
  intros H1 H2 H3 H4 Hbad. unfold main.
  rewrite bind_run, ensure_dirs_run. cbv beta iota.
  rewrite bind_run, (fetch_all_run _ c1 c2 c3 c4 H1 H2 H3 H4).
  cbv beta iota. cbn [files trace].
  match goal with |- context [bind _ _ ?w0] => set (w1 := w0) end.
  destruct (fetched_files (files w) c1 c2 c3 c4)
    as (Hf1 & Hf2 & Hf3 & Hf4 & Hother).
  assert (exists evs, trace w1 = trace w ++ evs /\
            Forall (fun ev => ~ is_output_event E ev) evs) as Hquiet.
  { eexists. split; [unfold w1; cbn [trace]; by rewrite <- app_assoc|].
    repeat constructor; try (by intros []);
      apply rules_path_not_output. }
  destruct Hquiet as (evs & Htr & Hq).
  assert (forall e, is_load_error e ->
            exists e' w' evs',
              (Raise e, w1) = (Raise (A:=unit) e', w') /\
              is_load_error e' /\ trace w' = trace w ++ evs' /\
              Forall (fun ev => ~ is_output_event E ev) evs' /\
              (forall p, ~ (RULES E ++ u "/") `prefix_of` p ->
                         files w' !! p = files w !! p)) as Hdone.
  { intros e He. exists e, w1, evs. repeat split; try done. }
  destruct (document_ok_dec c1) as [Hok1 | Hno1].
  2: { destruct (load_payload_bad _ w1 c1 Hf1 Hno1) as (e & Hrun & He).
       rewrite bind_run, Hrun. cbv beta iota. by apply Hdone. }
  rewrite bind_run, (load_payload_ok _ w1 c1 Hf1 Hok1). cbv beta iota.
  destruct (document_ok_dec c2) as [Hok2 | Hno2].
  2: { destruct (load_payload_bad _ w1 c2 Hf2 Hno2) as (e & Hrun & He).
       rewrite bind_run, Hrun. cbv beta iota. by apply Hdone. }
  rewrite bind_run, (load_payload_ok _ w1 c2 Hf2 Hok2). cbv beta iota.
  destruct (document_ok_dec c3) as [Hok3 | Hno3].
  2: { destruct (load_payload_bad _ w1 c3 Hf3 Hno3) as (e & Hrun & He).
       rewrite bind_run, Hrun. cbv beta iota. by apply Hdone. }
  rewrite bind_run, (load_payload_ok _ w1 c3 Hf3 Hok3). cbv beta iota.
  destruct (document_ok_dec c4) as [Hok4 | Hno4].
  2: { destruct (load_payload_bad _ w1 c4 Hf4 Hno4) as (e & Hrun & He).
       rewrite bind_run, Hrun. cbv beta iota. by apply Hdone. }
  by destruct Hbad.
Qed.





End PipelineFacts.

Lemma abort_on_malformed_source_witness :
  exists e w', main E_malformed w_init = (Raise e, w') /\ is_load_error e.
Proof.
  destruct (abort_on_malformed_source E_malformed w_init [] [] [] [])
    as (e & w' & evs & Hrun & He & _); try reflexivity.
  - intros [(v & l & Hv & Hl) _]. injection Hv as <-. discriminate.
  - eauto.
Defined.


(** * Further properties of the code *)

(** ** Stripping *)

Lemma lstrip_by_split (p : char -> bool) (s : str) :
  exists k, s = k ++ lstrip_by p s /\ Forall (fun c => p c = true) k.
Proof.
  induction s as [|c s (k & Hk & Hall)]; simpl.
  - by exists [].
  - destruct (p c) eqn:Hc.
    + exists (c :: k). split; [by rewrite Hk at 1 | by constructor].
    + by exists [].
Qed.

Lemma lstrip_by_head (p : char -> bool) (s : str) :
  match lstrip_by p s with [] => True | c :: _ => p c = false end.
Proof.
  induction s as [|c s IH]; simpl; [done|].
  destruct (p c) eqn:Hc; [done|]. exact Hc.
Qed.

Lemma lstrip_by_fixed (p : char -> bool) (s : str) :
  match s with [] => True | c :: _ => p c = false end ->
  lstrip_by p s = s.
Proof. destruct s as [|c s]; simpl; [done|]. by intros ->. Qed.

Lemma rstrip_by_split (p : char -> bool) (s : str) :
  exists k, s = rstrip_by p s ++ k /\ Forall (fun c => p c = true) k.
Proof.
  unfold rstrip_by.
  destruct (lstrip_by_split p (reverse s)) as (k & Hk & Hall).
  exists (reverse k). split.
  - rewrite <- reverse_app, <- Hk. by rewrite reverse_involutive.
  - by apply Forall_reverse.
Qed.

Lemma strip_by_fixed (p : char -> bool) (s : str) :
  match s with [] => True | c :: _ => p c = false end ->
  match reverse s with [] => True | c :: _ => p c = false end ->
  strip_by p s = s.
Proof.
  intros Hh Hl. unfold strip_by, rstrip_by.
  rewrite (lstrip_by_fixed p s Hh), (lstrip_by_fixed p _ Hl).
  apply reverse_involutive.
Qed.

Lemma strip_by_ends (p : char -> bool) (s : str) :
  match strip_by p s with [] => True | c :: _ => p c = false end /\
  match reverse (strip_by p s) with [] => True | c :: _ => p c = false end.
Proof.
  split.
  - pose proof (lstrip_by_head p s) as Hh.
    destruct (rstrip_by_split p (lstrip_by p s)) as (k & Hk & _).
    unfold strip_by. destruct (rstrip_by p (lstrip_by p s)) as [|c r]; [done|].
    rewrite Hk in Hh. exact Hh.
  - unfold strip_by, rstrip_by. rewrite reverse_involutive.
    apply lstrip_by_head.
Qed.

Lemma strip_by_idem (p : char -> bool) (s : str) :
  strip_by p (strip_by p s) = strip_by p s.
Proof. destruct (strip_by_ends p s). by apply strip_by_fixed. Qed.

Lemma strip_by_Forall (P : char -> Prop) (p : char -> bool) (s : str) :
  Forall P s -> Forall P (strip_by p s).
Proof.
  intros Hs. unfold strip_by.
  destruct (lstrip_by_split p s) as (k & Hk & _).
  destruct (rstrip_by_split p (lstrip_by p s)) as (k' & Hk' & _).
  rewrite Hk in Hs. apply Forall_app in Hs as [_ Hs].
  rewrite Hk' in Hs. by apply Forall_app in Hs as [Hs _].
Qed.

Lemma strip_by_none (p : char -> bool) (s : str) :
  Forall (fun c => p c = false) s -> strip_by p s = s.
Proof.
  intros Hs. apply strip_by_fixed.
  - destruct s as [|c s]; [done|]. by apply Forall_cons in Hs as [? _].
  - apply Forall_reverse in Hs.
    destruct (reverse s) as [|c r]; [done|].
    by apply Forall_cons in Hs as [? _].
Qed.

(** X1. The entries [load_payload] returns are never empty and carry no
    whitespace at either end: stripping one again changes nothing. *)
Theorem payload_entries_clean (payload : list pyval) :
  Forall (fun e => e <> [] /\ strip e = e) (payload_entries payload).
Proof.
  unfold payload_entries. apply Forall_forall. intros e He.
  apply list_elem_of_In, in_map_iff in He as (x & <- & Hx).
  apply filter_In in Hx as [_ Hx]. apply andb_true_iff in Hx as [_ Ht].
  split.
  - intros Hnil. rewrite Hnil in Ht. discriminate.
  - apply strip_by_idem.
Qed.

(** X2. On an entry free of quote characters the strip chain is plain
    whitespace stripping, and applying it twice is applying it once. *)
Theorem trim_quote_free (d : str) :
  quote_free d -> trim d = strip d /\ stable d.
Proof.
  intros Hq.
  assert (forall s, quote_free s -> trim s = strip s) as Hts.
  { intros s Hs. unfold trim.
    assert (quote_free (strip s)) as Hs' by by apply strip_by_Forall.
    unfold strip_chars. rewrite (strip_by_none _ (strip s)).
    - apply strip_by_none. eapply Forall_impl; [exact Hs'|].
      intros c [_ Hc]. apply bool_decide_eq_false.
      by intros ->%list_elem_of_singleton.
    - eapply Forall_impl; [exact Hs'|].
      intros c [Hc _]. apply bool_decide_eq_false.
      by intros ->%list_elem_of_singleton. }
  split; [by apply Hts|]. unfold stable.
  rewrite (Hts d Hq). rewrite Hts by by apply strip_by_Forall.
  apply strip_by_idem.
Qed.

Lemma trim_quote_free_witness :
  trim (u "  +.example.com ") = strip (u "  +.example.com ") /\
  stable (u "  +.example.com ").
Proof.
  apply trim_quote_free. unfold quote_free.
  apply Forall_forall. intros c Hc. vm_compute in Hc.
  repeat (apply elem_of_cons in Hc as [-> | Hc]; [split; discriminate|]).
  by apply elem_of_nil in Hc.
Defined.

(** ** The reducer: composition and dependence on the exclusion set *)

Lemma retained_app (gs1 gs2 : list str) (d : str) :
  retained (gs1 ++ gs2) d = retained gs1 d && retained gs2 d.
Proof.
  apply eq_true_iff_eq.
  rewrite andb_true_iff, !retained_true_iff. unfold set_of.
  split.
  - intros H. split; intros s Hs; apply H;
      apply elem_of_list_to_set, elem_of_app;
      apply elem_of_list_to_set in Hs; auto.
  - intros [H1 H2] s Hs.
    apply elem_of_list_to_set, elem_of_app in Hs as [Hs | Hs];
      [apply H1 | apply H2]; by apply elem_of_list_to_set.
Qed.

Lemma dot_boundary_trans (dd s t : str) :
  dot_boundary dd s -> dot_boundary s t -> dot_boundary dd t.
Proof.
  intros [-> | [k Hk]] Hst; [done|].
  destruct Hst as [-> | [k' Hk']].
  - right. by exists k.
  - right. exists (k ++ u "." ++ k'). rewrite Hk, Hk'.
    by rewrite <- !app_assoc.
Qed.

Lemma emitted_stable (d : str) :
  stable d -> emitted (emitted d) = emitted d /\ trim (emitted d) = trim d.
Proof.
  unfold stable. intros Hst.
  destruct (emitted_cases d) as [[Hne He] | [Hnil He]]; rewrite He.
  - split; [|done]. unfold emitted. rewrite Hst.
    by destruct (trim d).
  - split; [|done]. unfold emitted. by rewrite Hnil.
Qed.

Lemma retained_emitted (gs : list str) (d : str) :
  stable d -> retained gs (emitted d) = retained gs d.
Proof.
  intros Hst. unfold retained.
  by rewrite (proj2 (emitted_stable d Hst)).
Qed.

(** X3. [remove_intersections] works entry by entry: the result for a
    concatenation is the concatenation of the results, and the result is
    never longer than the input. *)
Theorem remove_intersections_app (A B gs : list str) :
  remove_intersections (A ++ B) gs
  = remove_intersections A gs ++ remove_intersections B gs /\
  (length (remove_intersections A gs) <= length A)%nat.
Proof.
  rewrite !remove_intersections_filter_map. split.
  - by rewrite List.filter_app, map_app.
  - rewrite length_map. apply List.filter_length_le.
Qed.

(** X4. Only the set of exclusion suffixes matters: two exclusion lists
    with the same elements, in any order and with any repetitions, give
    the same result. *)
Theorem remove_intersections_same_set (A gs gs' : list str) :
  (forall s, s ∈ gs <-> s ∈ gs') ->
  remove_intersections A gs = remove_intersections A gs'.
Proof.
  intros Hsame.
  assert (set_of gs = set_of gs') as Hset.
  { apply set_eq. intros s. unfold set_of.
    by rewrite !elem_of_list_to_set. }
  rewrite !remove_intersections_filter_map. f_equal.
  apply List.filter_ext. intros d. unfold retained. by rewrite Hset.
Qed.

Lemma remove_intersections_same_set_witness :
  remove_intersections [u "a.google.com"; u "b.org"]
                       [u "google.com"; u "x.io"; u "google.com"]
  = remove_intersections [u "a.google.com"; u "b.org"]
                         [u "x.io"; u "google.com"].
Proof.
  apply remove_intersections_same_set.
  intros s. rewrite !elem_of_cons, !elem_of_nil. tauto.
Defined.

(** X5. A larger exclusion set removes more: when every suffix of [gs]
    is in [gs'], the result for [gs'] is a sublist of the result for
    [gs]. *)
Theorem remove_intersections_antitone (A gs gs' : list str) :
  (forall s, s ∈ gs -> s ∈ gs') ->
  remove_intersections A gs' `sublist_of` remove_intersections A gs.
Proof.
  intros Hsub. rewrite !remove_intersections_filter_map.
  assert (forall d, retained gs' d = true -> retained gs d = true) as Himp.
  { intros d Hr. apply retained_true_iff. intros s Hs.
    apply (proj1 (retained_true_iff gs' d) Hr).
    unfold set_of in *. apply elem_of_list_to_set in Hs.
    apply elem_of_list_to_set. by apply Hsub. }
  induction A as [|d A IH]; simpl; [done|].
  destruct (retained gs' d) eqn:Hr'.
  - rewrite (Himp d Hr'). simpl. by apply sublist_skip.
  - destruct (retained gs d); simpl; [by apply sublist_cons | done].
Qed.

Lemma remove_intersections_antitone_witness :
  remove_intersections [u "a.google.com"; u "b.org"]
                       [u "google.com"; u "b.org"]
  `sublist_of`
  remove_intersections [u "a.google.com"; u "b.org"] [u "google.com"].
Proof.
  apply remove_intersections_antitone.
  intros s Hs. apply list_elem_of_singleton in Hs as ->. left.
Defined.

(** X6. A redundant suffix changes nothing: adding to the exclusion list
    a suffix that is itself an excluded name (equal to, or a subdomain
    of, a suffix already listed) gives the same result. *)
Theorem remove_intersections_redundant (A gs : list str) (s s' : str) :
  s ∈ gs ->
  dot_boundary s' s ->
  remove_intersections A (s' :: gs) = remove_intersections A gs.
Proof.
  intros Hs Hb. rewrite !remove_intersections_filter_map. f_equal.
  apply List.filter_ext. intros d. apply eq_true_iff_eq.
  rewrite !retained_true_iff. unfold set_of. split.
  - intros H t Ht. apply H. set_solver.
  - intros H t Ht Hd.
    apply elem_of_list_to_set, elem_of_cons in Ht as [-> | Ht].
    + apply (H s); [set_solver|].
      by apply (dot_boundary_trans _ s').
    + apply (H t); [set_solver | done].
Qed.

Lemma remove_intersections_redundant_witness :
  remove_intersections [u "x.mail.google.com"; u "b.org"]
                       [u "mail.google.com"; u "google.com"]
  = remove_intersections [u "x.mail.google.com"; u "b.org"]
                         [u "google.com"].
Proof.
  apply (remove_intersections_redundant _ _ (u "google.com")).
  - left.
  - right. by exists (u "mail").
Defined.

(** X7. Reducing in two passes is reducing once by both exclusion lists,
    for entries that are stable under stripping; in particular a second
    pass with the same exclusion list changes nothing. *)
Theorem remove_intersections_twice (A gs1 gs2 : list str) :
  Forall stable A ->
  remove_intersections (remove_intersections A gs1) gs2
  = remove_intersections A (gs1 ++ gs2) /\
  remove_intersections (remove_intersections A gs1) gs1
  = remove_intersections A gs1.
Proof.
  intros Hst.
  assert (forall gs, remove_intersections (remove_intersections A gs1) gs
                     = map emitted
                         (List.filter
                            (fun d => retained gs1 d && retained gs d) A))
    as Hgen.
  { intros gs. rewrite !remove_intersections_filter_map.
    induction Hst as [|d A Hd _ IH]; simpl; [done|].
    destruct (retained gs1 d); simpl; [|exact IH].
    rewrite (retained_emitted gs d Hd).
    destruct (retained gs d); simpl; [|exact IH].
    by rewrite (proj1 (emitted_stable d Hd)), IH. }
  split.
  - rewrite Hgen, remove_intersections_filter_map. f_equal.
    apply List.filter_ext. intros d. by rewrite retained_app.
  - rewrite Hgen, remove_intersections_filter_map. f_equal.
    apply List.filter_ext. intros d. by destruct (retained gs1 d).
Qed.

Lemma remove_intersections_twice_witness :
  let A := [u "a.google.com"; u " '+.b.org' "; u "c.io"] in
  remove_intersections (remove_intersections A [u "google.com"]) [u "io"]
  = remove_intersections A ([u "google.com"] ++ [u "io"]) /\
  remove_intersections (remove_intersections A [u "google.com"])
                       [u "google.com"]
  = remove_intersections A [u "google.com"].
Proof.
  apply remove_intersections_twice.
  repeat constructor.
Defined.

(** ** The splitter and the domain exporter *)

Lemma truthy_true_iff {A} (l : list A) : truthy l = true <-> l <> [].
Proof. destruct l; simpl; split; intros; congruence. Qed.

Lemma to_singbox_source_for_domains_eq (domains : list str) :
  to_singbox_source_for_domains domains
  = {| version := 4;
       rules :=
         (if truthy (suffix_part domains)
          then [DomainSuffix (sorted_set (suffix_part domains))] else [])
         ++ (if truthy (exact_part domains)
             then [Domain (sorted_set (exact_part domains))] else []) |}.
Proof.
  unfold to_singbox_source_for_domains. rewrite split_domains_parts.
  destruct (truthy (suffix_part domains)), (truthy (exact_part domains));
    reflexivity.
Qed.

Lemma same_elements_sorted_set (l l' : list str) :
  (forall x, x ∈ l <-> x ∈ l') ->
  sorted_set l = sorted_set l' /\ truthy l = truthy l'.
Proof.
  intros Hsame. split.
  - unfold sorted_set. f_equal. f_equal. apply set_eq. intros x.
    unfold set_of. by rewrite !elem_of_list_to_set.
  - destruct l as [|x l], l' as [|y l']; simpl; try done.
    + assert (y ∈ @nil str) as Hy by (apply Hsame; left).
      by apply elem_of_nil in Hy.
    + assert (x ∈ @nil str) as Hx by (apply Hsame; left).
      by apply elem_of_nil in Hx.
Qed.

(** X8. [split_domains] works entry by entry and keeps the input order:
    the categories of a concatenation are the concatenations of the
    categories. *)
Theorem split_domains_app (A B : list str) :
  split_domains (A ++ B)
  = (fst (split_domains A) ++ fst (split_domains B),
     snd (split_domains A) ++ snd (split_domains B)).
Proof.
  rewrite !split_domains_parts. cbn [fst snd].
  unfold suffix_part, exact_part.
  by rewrite !map_app, !List.filter_app, !map_app.
Qed.

(** X9. The rule source of a domain list depends only on which entries
    the list has: two lists with the same elements, in any order and with
    any repetitions, give the same rule source. *)
Theorem to_singbox_source_for_domains_same_elements (A B : list str) :
  (forall d, d ∈ A <-> d ∈ B) ->
  to_singbox_source_for_domains A = to_singbox_source_for_domains B.
Proof.
  intros Hsame.
  assert (forall x, x ∈ suffix_part A <-> x ∈ suffix_part B) as Hsx.
  { intros x. rewrite !suffix_part_elem_of.
    split; intros (d & Hd & H); exists d; (split; [by apply Hsame | done]). }
  assert (forall x, x ∈ exact_part A <-> x ∈ exact_part B) as Hex.
  { intros x. rewrite !exact_part_elem_of.
    split; intros (d & Hd & H); exists d; (split; [by apply Hsame | done]). }
  destruct (same_elements_sorted_set _ _ Hsx) as [Hs1 Ht1].
  destruct (same_elements_sorted_set _ _ Hex) as [Hs2 Ht2].
  rewrite !to_singbox_source_for_domains_eq.
  by rewrite Hs1, Ht1, Hs2, Ht2.
Qed.

Lemma to_singbox_source_for_domains_same_elements_witness :
  to_singbox_source_for_domains
    [u "b.org"; u "+.a.com"; u "b.org"; u "+.c.io"]
  = to_singbox_source_for_domains [u "+.c.io"; u "+.a.com"; u "b.org"].
Proof.
  apply to_singbox_source_for_domains_same_elements.
  intros d. rewrite !elem_of_cons, !elem_of_nil. tauto.
Defined.

(** X10. Reducing and then exporting: no name in a rule block of the rule
    source of a reduced list equals an exclusion suffix or is a subdomain
    of one. *)
Theorem exported_reduced_excludes (A gs l : list str) (x s : str) :
  DomainSuffix l ∈ rules (to_singbox_source_for_domains
                            (remove_intersections A gs))
  \/ Domain l ∈ rules (to_singbox_source_for_domains
                         (remove_intersections A gs)) ->
  x ∈ l ->
  s ∈ gs ->
  ~ dot_boundary x s.
Proof.
  intros Hl Hx Hs.
  assert (exists r, r ∈ remove_intersections A gs /\ x = normalize_domain r)
    as (r & Hr & ->).
  { destruct Hl as [Hl | Hl]; apply rules_of_domains_elem_of in Hl;
      destruct Hl as [[_ Heq] | [_ Heq]]; try discriminate;
      injection Heq as ->; apply (proj1 (sorted_set_elem_of _ _)) in Hx.
    - apply suffix_part_elem_of in Hx as (r & Hr & Hm & ->).
      exists r. split; [done|]. by rewrite normalize_domain_cases, Hm.
    - apply exact_part_elem_of in Hx as (r & Hr & Hm & ->).
      exists r. split; [done|]. by rewrite normalize_domain_cases, Hm. }
  apply elem_of_remove_intersections in Hr as (d & _ & Hret & ->).
  assert (normalize_domain (emitted d) = normalize_domain (trim d)) as ->.
  { destruct (emitted_cases d) as [[_ ->] | [Hnil ->]]; [done|].
    by rewrite (normalize_domain_of_trim_nil d Hnil), Hnil. }
  apply (proj1 (retained_true_iff gs d) Hret).
  unfold set_of. by apply elem_of_list_to_set.
Qed.

Lemma exported_reduced_excludes_witness :
  ~ dot_boundary (u "b.org") (u "google.com").
Proof.
  apply (exported_reduced_excludes
           [u "+.a.google.com"; u "'+.b.org'"; u "c.io"]
           [u "google.com"] [u "b.org"]).
  - left. vm_compute. left.
  - left.
  - left.
Defined.

(** ** Loading, downloading and complete runs *)

Lemma dict_get_missing (items : list (pyval * pyval)) (key : str) :
  (forall k x, (PyStr k, x) ∈ items -> k <> key) ->
  dict_get items key = PyNone.
Proof.
  induction items as [|[k x] items IH]; intros Hno; simpl; [done|].
  assert (dict_get items key = PyNone) as Hrest.
  { apply IH. intros k' x' Hin. apply (Hno k' x'). by right. }
  destruct k; try exact Hrest.
  rewrite bool_decide_eq_false_2; [exact Hrest|].
  apply (Hno s x). left.
Qed.




Section MoreRuns.
Context (E : environment).


(** X12. A document whose top level is not a mapping, or is a mapping
    without a [payload] key, is rejected with [ValueError] and the world
    is left as it was. *)
Theorem load_payload_shape_error (p : path) (w : world) (c : data)
    (v : pyval) :
  files w !! p = Some c ->
  parse_yaml E c = Some v ->
  (forall items, v = PyDict items ->
     forall k x, (PyStr k, x) ∈ items -> k <> u "payload") ->
  load_payload E p w = (Raise (ValueError p), w).
Proof.
  intros Hf Hv Hshape. unfold load_payload, bind, read_file.
  rewrite Hf, Hv.
  assert (payload_of v = PyNone) as ->; [|done].
  destruct v; try reflexivity. simpl.
  apply dict_get_missing. by apply Hshape.
Qed.


Lemma fetch_one_run (name url : str) (w : world) :
  fetch_one E (name, url) w
  = match urlopen E url with
    | Some c =>
        (Ok tt,
         {| files := <[RULES E // (name ++ u ".txt") := c]> (files w);
            trace := trace w ++
              [EvStdout (MsgFetch name (RULES E // (name ++ u ".txt")));
               EvWrite (RULES E // (name ++ u ".txt")) c] |})
    | None =>
        (Raise (URLError url),
         {| files := files w;
            trace := trace w ++
              [EvStdout (MsgFetch name (RULES E // (name ++ u ".txt")))] |})
    end.
Proof.
  unfold fetch_one, bind, print, log_event, fetch, write_file, raise.
  destruct (urlopen E url); cbn [files trace]; [|done].
  by rewrite <- app_assoc.
Qed.

(** The download loop, for any list of sources: when it fails, it fails
    with [URLError] for an address whose download failed; it succeeds
    only when every download does; and in both cases it prints and writes
    under [RULES] only, leaving every other file as it was. *)
Lemma fetch_loop_outcome (srcs : list (str * str)) (w w' : world)
    (r : result unit) :
  for_each srcs (fetch_one E) w = (r, w') ->
  (exists evs, trace w' = trace w ++ evs /\
               Forall (fun ev => ~ is_output_event E ev) evs) /\
  (forall p, ~ (RULES E ++ u "/") `prefix_of` p ->
             files w' !! p = files w !! p) /\
  match r with
  | Ok _ => Forall (fun src => is_Some (urlopen E (snd src))) srcs
  | Raise e =>
      exists url, e = URLError url /\ url ∈ map snd srcs /\
                  urlopen E url = None
  end.
Proof.
  revert w. induction srcs as [|[name url] srcs IH]; intros w.
  - intros [= <- <-]. split; [|split; [done | constructor]].
    exists []. by rewrite app_nil_r.
  - cbn [for_each]. rewrite bind_run, fetch_one_run.
    destruct (urlopen E url) as [c|] eqn:Hu.
    + intros Hrest. apply IH in Hrest as ((evs & Htr & Hq) & Hfs & Hr).
      cbn [files trace] in *. split; [|split].
      * eexists. split; [rewrite Htr, <- app_assoc; reflexivity|].
        apply Forall_app. split; [|done].
        repeat constructor; [by intros [] | apply rules_path_not_output].
      * intros p Hp. rewrite (Hfs p Hp). apply lookup_insert_ne.
        intros <-. apply Hp. eexists. unfold path_join.
        by rewrite <- app_assoc.
      * destruct r as [[]|e].
        -- constructor; [cbn [snd]; rewrite Hu; by eexists | done].
        -- destruct Hr as (url' & -> & Hin & Hnone).
           exists url'. split; [done|]. split; [by right | done].
    + intros [= <- <-]. cbn [files trace]. split; [|split; [done|]].
      * eexists. split; [reflexivity|]. repeat constructor. by intros [].
      * exists url. split; [done|]. split; [left | done].
Qed.


(** X14. A failed download is fatal to the run: when one of the four
    downloads fails, [main] ends with [URLError] for an address whose
    download failed, having written nothing outside [RULES] and launched
    no compiler; every file outside [RULES] is as it was. *)
Theorem main_fetch_failure (w : world) :
  ~ Forall (fun src => is_Some (urlopen E (snd src))) SRC_URLS ->
  exists url w' evs,
    main E w = (Raise (URLError url), w') /\
    url ∈ map snd SRC_URLS /\
    urlopen E url = None /\
    trace w' = trace w ++ evs /\
    Forall (fun ev => ~ is_output_event E ev) evs /\
    (forall p, ~ (RULES E ++ u "/") `prefix_of` p ->
               files w' !! p = files w !! p).
Proof.
  intros Hfail. unfold main.
  rewrite bind_run, ensure_dirs_run. cbv beta iota.
  rewrite bind_run.
  change (for_each SRC_URLS _) with (for_each SRC_URLS (fetch_one E)).
  match goal with |- context [for_each SRC_URLS (fetch_one E) ?w0] =>
    destruct (for_each SRC_URLS (fetch_one E) w0) as [r w'] eqn:Hloop
  end.
  apply fetch_loop_outcome in Hloop as ((evs & Htr & Hq) & Hfs & Hr).
  cbn [files trace] in *.
  destruct r as [[]|e]; [by destruct Hfail|].
  destruct Hr as (url & -> & Hin & Hnone).
  exists url, w'. eexists. split; [reflexivity|].
  split; [done|]. split; [done|].
  split; [rewrite Htr, <- app_assoc; reflexivity|].
  split; [|done].
  apply Forall_app. split; [|done]. repeat constructor; by intros [].
Qed.







End MoreRuns.

(** ** The further properties on concrete runs *)



Lemma load_payload_shape_error_witness :
  load_payload E_malformed (u "/repo/rules/direct.txt") w_downloaded
  = (Raise (ValueError (u "/repo/rules/direct.txt")), w_downloaded).
Proof.
  apply (load_payload_shape_error E_malformed _ _ [] PyNone).
  - vm_compute. reflexivity.
  - reflexivity.
  - intros items Heq. discriminate.
Defined.


Lemma main_fetch_failure_witness :
  exists url w', main E_fetch_fails w_init = (Raise (URLError url), w').
Proof.
  destruct (main_fetch_failure E_fetch_fails w_init)
    as (url & w' & evs & Hrun & _).
  - intros Hall.
    apply Forall_cons in Hall as [_ Hall].
    apply Forall_cons in Hall as [_ Hall].
    apply Forall_cons in Hall as [[c Hc] _].
    vm_compute in Hc. discriminate.
  - eauto.
Defined.




(** ** Label boundaries *)


